(** * Platypus variable types ([platypus/types.py])

    A shallow embedding of the [Type] descriptors of Platypus: the
    continuous types [Real], [Real_Normal], [Real_T], the bit-string type
    [Binary], the Gray-coded [Integer], [Permutation] and [Subset],
    together with the properties of their [rand], [encode], [decode] and
    [__str__] methods.

    Conventions of the embedding.
    - A Python [int] is a [Z]; a finite Python [float] is a [Q] (only
      comparisons of floats are used by the code, and those are exact on
      finite values); a list of booleans is a [list bool].
    - What the code leaves to binary64 arithmetic is an argument of the
      function that uses it: the integer part [flog2 x] of
      [math.log(x, 2)], the conversion [to_float], the sum [fadd].
    - A call that can raise returns a [result]: [Ok v] or [Raise e].
    - The random source is made explicit: every [rand] takes as argument
      the value that the generator delivers at that call. *)

From Stdlib Require Import ZArith QArith Bool List Ascii String DecimalString Lia.
From stdpp Require Import base tactics option list.

(** ** Python values, exceptions and built-ins *)

Module Py.

Inductive exn : Set :=
| TypeError          (* e.g. subscripting [None] *)
| ValueError         (* e.g. [math.log] outside its domain *)
| IndexError         (* list index out of range *)
| OverflowError      (* e.g. [float] of an int beyond the range of floats *)
| PreconditionError. (* a documented precondition of the codec is violated *)

Inductive result (A : Type) : Type :=
| Ok (a : A)
| Raise (e : exn).
Arguments Ok {A} a.
Arguments Raise {A} e.

#[global] Instance result_ret : MRet result := fun A a => Ok a.
#[global] Instance result_bind : MBind result := fun A B f m =>
  match m with
  | Ok a => f a
  | Raise e => Raise e
  end.

Definition is_ok {A} (r : result A) : bool :=
  match r with Ok _ => true | Raise _ => false end.

(** [a < b] on floats. *)
Definition flt (a b : Q) : bool :=
  match (a ?= b)%Q with Lt => true | _ => false end.

(** [max([a, b])]: the first of the largest items. *)
Definition max2 (a b : Q) : Q := if flt a b then b else a.

(** [min([a, b])]: the first of the smallest items. *)
Definition min2 (a b : Q) : Q := if flt b a then b else a.

(** [list(range(start, stop))] for non-negative bounds. *)
Definition range (start stop : nat) : list nat := seq start (stop - start).

(** [l[:n]]: a negative [n] counts from the end of the list. *)
Definition slice_to {A} (l : list A) (n : Z) : list A :=
  if decide (0 <= n)%Z then take (Z.to_nat n) l
  else take (Z.to_nat (Z.of_nat (length l) + n)) l.

(** [l[i]] for a non-negative index. *)
Definition getitem {A} (l : list A) (i : nat) : result A :=
  match l !! i with
  | Some x => Ok x
  | None => Raise IndexError
  end.

(** [o[0]] where [o] is [None] or a list of flags. *)
Definition subscript0 (o : option (list bool)) : result bool :=
  match o with
  | None => Raise TypeError
  | Some l => getitem l 0
  end.

(** [int(math.log(x, 2))] for an integer [x]: [math.log] raises
    [ValueError] unless [0 < x]; otherwise the result is [flog2 x], the
    integer part of the quotient that binary64 arithmetic gives.  It
    need not be the floor of the exact logarithm: it is one more at
    [2^48 - 1] (48), and one less at [2^2955] (2954). *)
Definition int_log2 (flog2 : Z -> Z) (x : Z) : result Z :=
  if decide (0 < x)%Z then Ok (flog2 x) else Raise ValueError.

End Py.
Import Py.

(** ** The bit and Gray codec ([platypus/tools.py]) *)

Module Tools.
Local Open Scope Z_scope.

(** Modelled from the spec: the representation that [int2bin] produces
    (its code, in [tools.py], is not part of the sources): the [width]
    low bits of [value] as a big-endian boolean sequence, most
    significant bit first. *)
Fixpoint bits_be (width : nat) (value : Z) : list bool :=
  match width with
  | O => []
  | S w => Z.testbit value (Z.of_nat w) :: bits_be w value
  end.

(** Modelled from the spec: [tools.py], which defines [int2bin], is not
    part of the sources.  [int2bin(value, nbits)] returns the
    [nbits]-long big-endian boolean sequence that represents [value];
    its precondition is [0 <= value < 2^nbits].  What a call outside of
    it does is not defined: the error returned here marks the call as
    outside of the domain, and no property below concludes it. *)
Definition int2bin (value nbits : Z) : result (list bool) :=
  if decide (0 <= value < 2 ^ nbits)
  then Ok (bits_be (Z.to_nat nbits) value)
  else Raise PreconditionError.

(** Modelled from the spec: [tools.py], which defines [bin2int], is not
    part of the sources.  [bin2int(bits)] is the inverse of [int2bin]:
    total over any bit sequence, it returns the non-negative integer
    that the sequence encodes. *)
Definition bin2int (bits : list bool) : Z :=
  fold_left (fun acc (b : bool) => 2 * acc + Z.b2z b) bits 0.

(** Modelled from the spec: the step of [bin2gray] past position 0, with
    [prev] the preceding input bit. *)
Fixpoint bin2gray_from (prev : bool) (bits : list bool) : list bool :=
  match bits with
  | [] => []
  | b :: rest => xorb b prev :: bin2gray_from b rest
  end.

(** Modelled from the spec: [tools.py], which defines [bin2gray], is not
    part of the sources.  Output bit 0 equals input bit 0; each
    subsequent output bit is the exclusive-or of the corresponding input
    bit and the preceding input bit. *)
Definition bin2gray (bits : list bool) : list bool :=
  match bits with
  | [] => []
  | b :: rest => b :: bin2gray_from b rest
  end.

(** Modelled from the spec: the accumulation of [gray2bin], with [acc]
    the exclusive-or of the Gray bits read so far, which is the output
    bit recovered last. *)
Fixpoint gray2bin_acc (acc : bool) (bits : list bool) : list bool :=
  match bits with
  | [] => []
  | g :: rest => let acc' := xorb acc g in acc' :: gray2bin_acc acc' rest
  end.

(** Modelled from the spec: [tools.py], which defines [gray2bin], is not
    part of the sources.  The inverse transform is a prefix
    exclusive-or accumulation over the Gray-coded sequence, computed
    left to right. *)
Definition gray2bin (bits : list bool) : list bool :=
  gray2bin_acc false bits.

End Tools.
Import Tools.

(** ** [class Binary(Type)] *)

Module Binary.

Record t : Set := { nbits : Z }.

Definition init (nbits : Z) : result t := Ok {| nbits := nbits |}.

(** [rand]: one [random.choice([False, True])] per position of
    [range(self.nbits)]; [coin i] is the outcome of the [i]-th draw. *)
Definition rand (self : t) (coin : nat -> bool) : list bool :=
  map coin (seq 0 (Z.to_nat (nbits self))).

End Binary.

(** ** [class Integer(Binary)] *)

Module Integer.
Local Open Scope Z_scope.

Record t : Set := {
  super : Binary.t;
  min_value : Z;
  max_value : Z
}.

Definition nbits (self : t) : Z := Binary.nbits (super self).

Definition init (flog2 : Z -> Z) (min_value max_value : Z) : result t :=
  l ← int_log2 flog2 (max_value - min_value);
  base ← Binary.init (l + 1);
  mret {| super := base; min_value := min_value; max_value := max_value |}.

Definition encode (self : t) (value : Z) : result (list bool) :=
  bits ← int2bin (value - min_value self) (nbits self);
  mret (bin2gray bits).

Definition decode (self : t) (value : list bool) : Z :=
  let value := bin2int (gray2bin value) in
  let value :=
    if decide (value > max_value self - min_value self)
    then value - (max_value self - min_value self)
    else value in
  min_value self + value.

(** [rand]: [randint] is the outcome of
    [random.randint(self.min_value, self.max_value)]. *)
Definition rand (self : t) (randint : Z) : result (list bool) :=
  encode self randint.

End Integer.

(** ** [class Real(Type)] *)

Module Real.

Record t : Set := { min_value : Q; max_value : Q }.

(** [to_float x] is [float(x)] at a numeric argument: [x] itself when
    it is a float, the nearest float when it is an int, [OverflowError]
    when the int is too large. *)
Definition init (to_float : Q -> result Q) (min_value max_value : Q)
    : result t :=
  lo ← to_float min_value;
  hi ← to_float max_value;
  mret {| min_value := lo; max_value := hi |}.

(** [rand]: [uniform] is the outcome of
    [random.uniform(self.min_value, self.max_value)]. *)
Definition rand (self : t) (uniform : Q) : Q := uniform.

End Real.

(** ** [class Real_Normal(Type)] *)

Module Real_Normal.

Record t : Set := {
  min_value : Q;
  max_value : Q;
  default_value : Q;
  spread : Q;
  clamp : option (list bool)
}.

(** The defaults of the keyword arguments [spread=5, clamp = None]. *)
Definition default_spread : Q := 5 # 1.
Definition default_clamp : option (list bool) := None.

(** [to_float] as in [Real.init]; [spread] and [clamp] are stored as
    they are given. *)
Definition init (to_float : Q -> result Q)
    (min_value max_value default_value spread : Q)
    (clamp : option (list bool)) : result t :=
  lo ← to_float min_value;
  hi ← to_float max_value;
  d ← to_float default_value;
  mret {| min_value := lo; max_value := hi;
          default_value := d; spread := spread;
          clamp := clamp |}.

(** [rand]: [normal] is the outcome of
    [float(np.random.normal(self.default_value, self.spread, 1))].  The
    condition [self.spread > 0 and not self.clamp[0]] evaluates its
    second operand only when the first one holds. *)
Definition rand (self : t) (normal : Q) : result Q :=
  if flt 0 (spread self) then
    flag ← subscript0 (clamp self);
    if negb flag then
      let value := normal in
      let value := max2 value (min_value self) in
      let value := min2 value (max_value self) in
      mret value
    else mret (default_value self)
  else mret (default_value self).

End Real_Normal.

(** ** [class Real_T(Type)] *)

Module Real_T.

Record t : Set := {
  min_value : Q;
  max_value : Q;
  default_value : Q
}.

(** [to_float] as in [Real.init]. *)
Definition init (to_float : Q -> result Q)
    (min_value max_value default_value : Q) : result t :=
  lo ← to_float min_value;
  hi ← to_float max_value;
  d ← to_float default_value;
  mret {| min_value := lo; max_value := hi; default_value := d |}.

(** [rand]: [fadd] is the (rounded) addition of floats and [standard_t]
    the outcome of [np.random.standard_t(df=5)]. *)
Definition rand (fadd : Q -> Q -> Q) (self : t) (standard_t : Q) : Q :=
  let value := fadd standard_t (default_value self) in
  let value := max2 value (min_value self) in
  let value := min2 value (max_value self) in
  value.

End Real_T.

(** ** [class Subset(Type)] *)

Module Subset.

Record t (A : Type) : Type := { elements : list A; size : Z }.
Arguments elements {A} _.
Arguments size {A} _.

Definition init {A} (elements : list A) (size : Z) : result (t A) :=
  Ok {| elements := elements; size := size |}.

(** [list(range(1, len(self.elements)))], the list handed to
    [random.shuffle]. *)
Definition indices {A} (self : t A) : list nat :=
  range 1 (length (elements self)).

(** [indices[:self.size]] once [indices] has been shuffled in place into
    [shuffled]. *)
Definition selected {A} (self : t A) (shuffled : list nat) : list nat :=
  slice_to shuffled (size self).

(** [rand]: [shuffled] is the content of [indices] after
    [random.shuffle(indices)]. *)
Definition rand {A} (self : t A) (shuffled : list nat) : result (list A) :=
  mapM (getitem (elements self)) (selected self shuffled).

(** [random.shuffle] reorders its argument: the possible results of
    [rand] are those obtained from the permutations of [indices]. *)
Definition rand_outcome {A} (self : t A) (out : list A) : Prop :=
  exists shuffled, indices self ≡ₚ shuffled /\ rand self shuffled = Ok out.

End Subset.

(** ** Vocabulary of the properties *)

(** Number of positions at which two bit sequences differ. *)
Fixpoint hamming (a b : list bool) : nat :=
  match a, b with
  | x :: a', y :: b' => (if Bool.eqb x y then 0 else 1) + hamming a' b'
  | _, _ => 0
  end.

(** The Gray code of the [w] low bits of [v]. *)
Definition gray_be (w : nat) (v : Z) : list bool := bin2gray (bits_be w v).

(** [decode(encode(v))], with the error of [encode] propagated. *)
Definition round_trip (self : Integer.t) (v : Z) : result Z :=
  bits ← Integer.encode self v; mret (Integer.decode self bits).

(** Clamping to the lower bound first and to the upper bound second. *)
Definition clamp_min_max (value lo hi : Q) : Q := min2 (max2 value lo) hi.

(** ** Instances used in the scenarios *)

(** [Integer(0, 4)]. *)
Definition Integer_0_4 : Integer.t :=
  {| Integer.super := {| Binary.nbits := 3 |};
     Integer.min_value := 0; Integer.max_value := 4 |}.

(** [Integer(0, 2**48 - 1)] as the constructor builds it when
    [int(math.log(2**48 - 1, 2))] is 48: a width of 49 bits, one more than
    the 48 that the range needs. *)
Definition Integer_48_wide : Integer.t :=
  {| Integer.super := {| Binary.nbits := 49 |};
     Integer.min_value := 0; Integer.max_value := 2 ^ 48 - 1 |}.

(** [Integer(0, 2**2955)] as the constructor builds it when
    [int(math.log(2**2955, 2))] is 2954: a width of 2955 bits, one less
    than the 2956 that the range needs. *)
Definition Integer_2955_narrow : Integer.t :=
  {| Integer.super := {| Binary.nbits := 2955 |};
     Integer.min_value := 0; Integer.max_value := 2 ^ 2955 |}.

(** [Real_T(5, 1, 0)] and [Real_Normal(5, 1, 0, 5, [False, False])]:
    bounds in the wrong order. *)
Definition Real_T_5_1 : Real_T.t :=
  {| Real_T.min_value := 5 # 1; Real_T.max_value := 1 # 1;
     Real_T.default_value := 0 # 1 |}.
Definition Real_Normal_5_1 : Real_Normal.t :=
  {| Real_Normal.min_value := 5 # 1; Real_Normal.max_value := 1 # 1;
     Real_Normal.default_value := 0 # 1;
     Real_Normal.spread := Real_Normal.default_spread;
     Real_Normal.clamp := Some [false; false] |}.

(** [Real_Normal(0, 10, 2)]: both keyword arguments at their defaults. *)
Definition Real_Normal_defaults : Real_Normal.t :=
  {| Real_Normal.min_value := 0 # 1; Real_Normal.max_value := 10 # 1;
     Real_Normal.default_value := 2 # 1;
     Real_Normal.spread := Real_Normal.default_spread;
     Real_Normal.clamp := Real_Normal.default_clamp |}.

(** [Subset(['a', 'b'], 2)]: the size is within [0..len(elements)]. *)
Definition Subset_ab_2 : Subset.t string :=
  {| Subset.elements := ["a"%string; "b"%string]; Subset.size := 2 |}.

(** ** [class Permutation(Type)] *)

Module Permutation.

Record t (A : Type) : Type := { elements : list A }.
Arguments elements {A} _.

Definition init {A} (elements : list A) : result (t A) :=
  Ok {| elements := elements |}.

(** [rand]: [shuffled] is the content of the copy of [self.elements]
    after [random.shuffle] has reordered it in place. *)
Definition rand {A} (self : t A) (shuffled : list A) : list A := shuffled.

Definition rand_outcome {A} (self : t A) (out : list A) : Prop :=
  exists shuffled, elements self ≡ₚ shuffled /\ rand self shuffled = out.

End Permutation.

(** ** The [%] operator on strings, as the [__str__] methods use it *)

Module Format.

(** The arguments that the methods pass: floats and ints. *)
Inductive value : Set :=
| Float (q : Q)
| Int (z : Z).

(** The text of [%d]: the decimal digits of an int; a float is truncated
    to an int first. *)
Definition render_d (v : value) : string :=
  match v with
  | Int z => NilZero.string_of_int (Z.to_int z)
  | Float q => NilZero.string_of_int (Z.to_int (Z.quot (Qnum q) (Zpos (Qden q))))
  end.

(** The text of [%f], given the text [render_f x] of a float [x]; an int
    is converted to a float first. *)
Definition render_f_value (render_f : Q -> string) (v : value) : string :=
  match v with
  | Float q => render_f q
  | Int z => render_f (inject_Z z)
  end.

(** [fmt % args], for formats made of plain text, [%%], [%d] and [%f].
    Each conversion takes the next argument: [TypeError] when none is
    left, and [TypeError] when arguments remain at the end of the format.
    The formats of this file use no other conversion; one is rejected
    here with [ValueError], as Python rejects a character that is no
    conversion, or a trailing [%]. *)
Fixpoint format (render_f : Q -> string) (fmt : string) (args : list value)
    : result string :=
  match fmt with
  | EmptyString =>
      match args with
      | [] => Ok EmptyString
      | _ :: _ => Raise TypeError
      end
  | String c rest =>
      if Ascii.eqb c "%" then
        match rest with
        | EmptyString => Raise ValueError
        | String k rest' =>
            if Ascii.eqb k "%" then
              s ← format render_f rest' args; mret (String "%" s)
            else if Ascii.eqb k "d" || Ascii.eqb k "f" then
              match args with
              | [] => Raise TypeError
              | a :: args' =>
                  s ← format render_f rest' args';
                  mret (String.append
                          (if Ascii.eqb k "d" then render_d a
                           else render_f_value render_f a) s)
              end
            else Raise ValueError
        end
      else s ← format render_f rest args; mret (String c s)
  end.

End Format.

(** ** The [__str__] methods *)

Section Str.
Variable render_f : Q -> string.
Local Open Scope string_scope.

(** [Real.__str__] *)
Definition Real_str (self : Real.t) : result string :=
  Format.format render_f "Real(%f, %f)"
    [Format.Float (Real.min_value self); Format.Float (Real.max_value self)].

(** [Real_Normal.__str__] *)
Definition Real_Normal_str (self : Real_Normal.t) : result string :=
  Format.format render_f "Real_Normal(%f, %f, %f, %f)"
    [Format.Float (Real_Normal.min_value self);
     Format.Float (Real_Normal.max_value self);
     Format.Float (Real_Normal.default_value self);
     Format.Float (Real_Normal.spread self)].

(** [Real_T.__str__] *)
Definition Real_T_str (self : Real_T.t) : result string :=
  Format.format render_f "Real_T(%f, %f)"
    [Format.Float (Real_T.min_value self);
     Format.Float (Real_T.max_value self);
     Format.Float (Real_T.default_value self)].

(** [Binary.__str__] *)
Definition Binary_str (self : Binary.t) : result string :=
  Format.format render_f "Binary(%d)" [Format.Int (Binary.nbits self)].

(** [Integer.__str__] *)
Definition Integer_str (self : Integer.t) : result string :=
  Format.format render_f "Integer(%d, %d)"
    [Format.Int (Integer.min_value self); Format.Int (Integer.max_value self)].

(** [Permutation.__str__] *)
Definition Permutation_str {A} (self : Permutation.t A) : result string :=
  Format.format render_f "Permutation(%d)"
    [Format.Int (Z.of_nat (length (Permutation.elements self)))].

(** [Subset.__str__] *)
Definition Subset_str {A} (self : Subset.t A) : result string :=
  Format.format render_f "Subset(%d, %d)"
    [Format.Int (Z.of_nat (length (Subset.elements self)));
     Format.Int (Subset.size self)].

End Str.

(** The decimal text of an int. *)
Definition dec (z : Z) : string := NilZero.string_of_int (Z.to_int z).

(** [Subset([10, 20, 30, 40], 2)] and [Real_Normal(0, 1, 7, 5, [True, False])]. *)
Definition Subset_4_2 : Subset.t nat :=
  {| Subset.elements := [10; 20; 30; 40]%nat; Subset.size := 2 |}.
Definition Real_Normal_frozen : Real_Normal.t :=
  {| Real_Normal.min_value := 0 # 1; Real_Normal.max_value := 1 # 1;
     Real_Normal.default_value := 7 # 1;
     Real_Normal.spread := Real_Normal.default_spread;
     Real_Normal.clamp := Some [true; false] |}.

(** * Properties of the codec *)

Section Codec.
Local Open Scope Z_scope.

Lemma length_bits_be w v : length (bits_be w v) = w.
Proof. induction w; simpl; auto. Qed.

Lemma bin2int_app bits b :
  bin2int (bits ++ [b]) = 2 * bin2int bits + Z.b2z b.
Proof. unfold bin2int. now rewrite fold_left_app. Qed.

(** Peeling the least significant bit off the end of the sequence. *)
Lemma bits_be_snoc w v :
  bits_be (S w) v = bits_be w (Z.div2 v) ++ [Z.odd v].
Proof.
  induction w as [|w IH].
  - cbn [bits_be app Z.of_nat]. now rewrite Z.bit0_odd.
  - change (bits_be (S (S w)) v)
      with (Z.testbit v (Z.of_nat (S w)) :: bits_be (S w) v).
    rewrite IH. cbn [bits_be app]. f_equal.
    rewrite Z.div2_spec, Z.shiftr_spec by lia.
    f_equal. lia.
Qed.

Lemma bin2int_bits_be w v :
  0 <= v < 2 ^ Z.of_nat w -> bin2int (bits_be w v) = v.
Proof.
  revert v. induction w as [|w IH]; intros v Hv.
  - simpl in *. unfold bin2int. simpl. lia.
  - rewrite bits_be_snoc, bin2int_app.
    rewrite Nat2Z.inj_succ, Z.pow_succ_r in Hv by lia.
    rewrite IH.
    + rewrite (Z.div2_odd v) at 3. lia.
    + rewrite Z.div2_div. split.
      * apply Z.div_pos; lia.
      * apply Z.div_lt_upper_bound; lia.
Qed.

Lemma gray2bin_acc_bin2gray_from prev bits :
  gray2bin_acc prev (bin2gray_from prev bits) = bits.
Proof.
  revert prev. induction bits as [|b rest IH]; intros prev; simpl; [done|].
  replace (xorb prev (xorb b prev)) with b by (destruct b, prev; done).
  now rewrite IH.
Qed.

Lemma gray2bin_bin2gray bits : gray2bin (bin2gray bits) = bits.
Proof.
  destruct bits as [|b rest]; [done|].
  unfold gray2bin. simpl. now rewrite gray2bin_acc_bin2gray_from.
Qed.

(** The bits of the number that a sequence encodes are the sequence. *)
Lemma bits_be_bin2int bits : bits_be (length bits) (bin2int bits) = bits.
Proof.
  induction bits as [|b bits IH] using rev_ind; [done|].
  rewrite length_app, Nat.add_1_r, bits_be_snoc, bin2int_app.
  assert (Hd : Z.div2 (2 * bin2int bits + Z.b2z b) = bin2int bits).
  { rewrite Z.div2_div. destruct b; simpl Z.b2z;
      Z.div_mod_to_equations; lia. }
  assert (Ho : Z.odd (2 * bin2int bits + Z.b2z b) = b).
  { rewrite Z.add_comm, Z.odd_add_mul_2. now destruct b. }
  now rewrite Hd, Ho, IH.
Qed.

(** A sequence of [n] bits encodes a number below [2^n]. *)
Lemma bin2int_range bits :
  0 <= bin2int bits < 2 ^ Z.of_nat (length bits).
Proof.
  induction bits as [|b bits IH] using rev_ind.
  - unfold bin2int. simpl. lia.
  - rewrite bin2int_app, length_app, Nat2Z.inj_add. simpl length.
    rewrite Z.pow_add_r by lia. change (2 ^ Z.of_nat 1) with 2.
    destruct b; simpl Z.b2z; lia.
Qed.

End Codec.

(** * [Integer]: the Gray-code round trip *)

Section IntegerRoundTrip.
Local Open Scope Z_scope.

(** What the constructor establishes. *)
Lemma Integer_init_inv flog2 lo hi self :
  Integer.init flog2 lo hi = Ok self ->
  lo < hi /\ Integer.min_value self = lo /\ Integer.max_value self = hi /\
  Integer.nbits self = flog2 (hi - lo) + 1.
Proof.
  unfold Integer.init, int_log2.
  destruct (decide (0 < hi - lo)) as [Hd|Hd]; simpl; [|discriminate].
  intros [= <-]. unfold Integer.nbits. simpl. repeat split; lia.
Qed.

Lemma Integer_init_ok flog2 lo hi :
  lo < hi ->
  Integer.init flog2 lo hi
    = Ok {| Integer.super := {| Binary.nbits := flog2 (hi - lo) + 1 |};
            Integer.min_value := lo; Integer.max_value := hi |}.
Proof.
  intros H. unfold Integer.init, int_log2. now rewrite decide_True by lia.
Qed.

(** Where the float logarithm is the exact one, the derived width holds
    every offset of the range, and is the least such width. *)
Lemma Integer_nbits_bounds flog2 lo hi self :
  Integer.init flog2 lo hi = Ok self ->
  flog2 (hi - lo) = Z.log2 (hi - lo) ->
  1 <= Integer.nbits self /\
  2 ^ (Integer.nbits self - 1) <= hi - lo < 2 ^ Integer.nbits self.
Proof.
  intros (Hlt & _ & _ & ->)%Integer_init_inv ->.
  pose proof (Z.log2_nonneg (hi - lo)).
  pose proof (Z.log2_spec (hi - lo) ltac:(lia)) as Hs.
  replace (Z.log2 (hi - lo) + 1 - 1) with (Z.log2 (hi - lo)) by lia.
  replace (Z.log2 (hi - lo) + 1) with (Z.succ (Z.log2 (hi - lo))) by lia.
  lia.
Qed.

Lemma int2bin_ok value nbits :
  0 <= value < 2 ^ nbits ->
  int2bin value nbits = Ok (bits_be (Z.to_nat nbits) value).
Proof. intros H. unfold int2bin. now rewrite decide_True. Qed.

Lemma bin2int_int2bin value nbits bits :
  int2bin value nbits = Ok bits -> bin2int bits = value.
Proof.
  unfold int2bin. destruct (decide _) as [H|H]; [|discriminate].
  intros [= <-]. apply bin2int_bits_be.
  destruct (Z.lt_ge_cases nbits 0) as [Hn|Hn].
  - rewrite Z.pow_neg_r in H by done. lia.
  - now rewrite Z2Nat.id.
Qed.

Lemma Integer_encode_ok self v :
  0 <= v - Integer.min_value self < 2 ^ Integer.nbits self ->
  Integer.encode self v =
    Ok (bin2gray (bits_be (Z.to_nat (Integer.nbits self))
                          (v - Integer.min_value self))).
Proof. intros H. unfold Integer.encode. now rewrite int2bin_ok. Qed.

Lemma Integer_decode_bin2gray self bits :
  0 <= bin2int bits <= Integer.max_value self - Integer.min_value self ->
  Integer.decode self (bin2gray bits) = Integer.min_value self + bin2int bits.
Proof.
  intros H. unfold Integer.decode. rewrite gray2bin_bin2gray.
  now rewrite decide_False by lia.
Qed.

(** A width with room for the range is not negative. *)
Lemma nbits_nonneg_of_room d nbits : 0 <= d < 2 ^ nbits -> 0 <= nbits.
Proof.
  intros Hd. destruct (Z.lt_ge_cases nbits 0) as [Hn|Hn]; [|done].
  rewrite Z.pow_neg_r in Hd by done. lia.
Qed.

(** The round trip on an instance whose width has room for the range. *)
Lemma Integer_round_trip self v :
  0 <= v - Integer.min_value self
    <= Integer.max_value self - Integer.min_value self ->
  Integer.max_value self - Integer.min_value self < 2 ^ Integer.nbits self ->
  exists bits,
    Integer.encode self v = Ok bits /\ Integer.decode self bits = v.
Proof.
  intros Hv Hroom.
  assert (Hn : 0 <= Integer.nbits self)
    by (eapply nbits_nonneg_of_room with
          (d := Integer.max_value self - Integer.min_value self); lia).
  eexists. split; [apply Integer_encode_ok; lia|].
  rewrite Integer_decode_bin2gray; rewrite bin2int_bits_be;
    rewrite ?Z2Nat.id; lia.
Qed.

(** No function from [0 .. n] to [0 .. n-1] is injective. *)
Lemma no_injection_below (n : nat) (f : nat -> nat) :
  (forall v, (v <= n)%nat -> (f v < n)%nat) ->
  (forall a b, (a <= n)%nat -> (b <= n)%nat -> f a = f b -> a = b) ->
  False.
Proof.
  intros Hrange Hinj.
  assert (Hnd : NoDup (f <$> seq 0 (S n))).
  { apply NoDup_fmap_2_strong; [|apply NoDup_seq].
    intros a b Ha%elem_of_seq Hb%elem_of_seq. apply Hinj; lia. }
  assert (Hsub : (f <$> seq 0 (S n)) ⊆+ seq 0 n).
  { apply NoDup_submseteq; [done|].
    intros y (v & -> & Hv%elem_of_seq)%list_elem_of_fmap.
    apply elem_of_seq. specialize (Hrange v). lia. }
  apply submseteq_length in Hsub.
  rewrite length_fmap, !length_seq in Hsub. lia.
Qed.

(** A width of [w] bits has no room for the [2^w + 1] offsets
    [0 .. 2^w]: whatever the encoder into sequences of [w] bits and
    whatever the decoder, some offset does not round-trip. *)
Lemma no_round_trip_in_width (w : nat) (enc : Z -> list bool)
    (dec : list bool -> Z) :
  (forall v, 0 <= v <= 2 ^ Z.of_nat w -> length (enc v) = w) ->
  (forall v, 0 <= v <= 2 ^ Z.of_nat w -> dec (enc v) = v) ->
  False.
Proof.
  intros Hlen Hrt.
  assert (Hpos : 0 < 2 ^ Z.of_nat w) by (apply Z.pow_pos_nonneg; lia).
  apply (no_injection_below (Z.to_nat (2 ^ Z.of_nat w))
           (fun k => Z.to_nat (bin2int (enc (Z.of_nat k))))).
  - intros v Hv.
    pose proof (bin2int_range (enc (Z.of_nat v))) as Hr.
    rewrite Hlen in Hr by lia. lia.
  - intros a b Ha Hb Hab.
    pose proof (bin2int_range (enc (Z.of_nat a))) as Hra.
    pose proof (bin2int_range (enc (Z.of_nat b))) as Hrb.
    assert (Heq : bin2int (enc (Z.of_nat a)) = bin2int (enc (Z.of_nat b)))
      by lia.
    assert (Henc : enc (Z.of_nat a) = enc (Z.of_nat b)).
    { rewrite <- (bits_be_bin2int (enc (Z.of_nat a))),
              <- (bits_be_bin2int (enc (Z.of_nat b))).
      rewrite !Hlen by lia. now rewrite Heq. }
    apply (f_equal dec) in Henc. rewrite !Hrt in Henc by lia. lia.
Qed.



End IntegerRoundTrip.

(** * [Integer.decode] on arbitrary bit sequences *)

Section IntegerDecode.
Local Open Scope Z_scope.

Lemma length_gray2bin_acc acc bits :
  length (gray2bin_acc acc bits) = length bits.
Proof.
  revert acc. induction bits as [|g rest IH]; intros acc; simpl; auto.
Qed.

Lemma length_gray2bin bits : length (gray2bin bits) = length bits.
Proof. apply length_gray2bin_acc. Qed.

(** [decode] on a sequence of the width of the type: the wrap, and the
    bounds on an instance whose width is not larger than the range needs,
    [2^(nbits-1) <= max_value - min_value]. *)
Lemma Integer_decode_wrap self bits :
  Z.of_nat (length bits) = Integer.nbits self ->
  0 <= Integer.max_value self - Integer.min_value self ->
  let d := Integer.max_value self - Integer.min_value self in
  let offset := bin2int (gray2bin bits) in
  (offset > d ->
     Integer.decode self bits = Integer.min_value self + (offset - d)) /\
  (offset <= d -> Integer.decode self bits = Integer.min_value self + offset) /\
  (2 ^ (Integer.nbits self - 1) <= d ->
     Integer.min_value self <= Integer.decode self bits
       <= Integer.max_value self).
Proof.
  intros Hlen Hd d offset.
  pose proof (bin2int_range (gray2bin bits)) as Hoff.
  rewrite length_gray2bin, Hlen in Hoff. fold offset in Hoff.
  unfold Integer.decode. fold offset. fold d.
  assert (Hroom : 2 ^ (Integer.nbits self - 1) <= d -> offset <= 2 * d).
  { intros Hlow.
    destruct (decide (Integer.nbits self = 0)) as [Hn|Hn].
    - rewrite Hn in Hoff. change (2 ^ 0) with 1 in Hoff. lia.
    - assert (2 ^ Integer.nbits self = 2 * 2 ^ (Integer.nbits self - 1)).
      { rewrite <- Z.pow_succ_r by lia. f_equal. lia. }
      lia. }
  destruct (decide (offset > d)); repeat split; intros; lia.
Qed.

(** C3.  On every bit sequence of the width of the type, [decode]
    returns a value, the Gray-decoded offset reduced by
    [max_value - min_value] exactly when it exceeds
    [max_value - min_value]; the value lies in [[min_value, max_value]]
    when the width is not larger than the range needs.  The constructor
    does not always derive such a width: from
    [int(math.log(2**48 - 1, 2)) = 48] it builds [Integer(0, 2**48 - 1)]
    with 49 bits, and the 49-bit sequence [[True] + [False]*48] decodes
    to [2**48], which is [max_value + 1]. *)
Theorem Integer_decode_total flog2 :
  (forall lo hi self bits,
     lo < hi ->
     Integer.init flog2 lo hi = Ok self ->
     Z.of_nat (length bits) = Integer.nbits self ->
     let offset := bin2int (gray2bin bits) in
     (offset > hi - lo ->
        Integer.decode self bits = lo + (offset - (hi - lo))) /\
     (offset <= hi - lo -> Integer.decode self bits = lo + offset) /\
     (2 ^ (Integer.nbits self - 1) <= hi - lo ->
        lo <= Integer.decode self bits <= hi)) /\
  (flog2 (2 ^ 48 - 1) = 48 ->
     Integer.init flog2 0 (2 ^ 48 - 1) = Ok Integer_48_wide /\
     Z.of_nat (length (true :: repeat false 48))
       = Integer.nbits Integer_48_wide /\
     Integer.decode Integer_48_wide (true :: repeat false 48) = 2 ^ 48 /\
     Integer.max_value Integer_48_wide < 2 ^ 48).
Proof.
  split.
  - intros lo hi self bits _ Hinit Hlen.
    apply Integer_init_inv in Hinit as (Hlt & Hmin & Hmax & _).
    pose proof (Integer_decode_wrap self bits Hlen) as Hw.
    rewrite Hmin, Hmax in Hw. apply Hw. lia.
  - intros Hlog. split; [|repeat split].
    rewrite Integer_init_ok by reflexivity.
    change (2 ^ 48 - 1 - 0) with (2 ^ 48 - 1). rewrite Hlog. reflexivity.
Qed.

Lemma Integer_decode_total_witness :
  (0 < 4 /\ Integer.init Z.log2 0 4 = Ok Integer_0_4 /\
   Z.of_nat (length [true; false; true]) = Integer.nbits Integer_0_4 /\
   2 ^ (Integer.nbits Integer_0_4 - 1) <= 4 - 0 /\
   0 <= Integer.decode Integer_0_4 [true; false; true] <= 4) /\
  Integer.decode Integer_48_wide (true :: repeat false 48) = 2 ^ 48.
Proof.
  assert (H04 : 0 < 4) by lia.
  assert (Hi : Integer.init Z.log2 0 4 = Ok Integer_0_4) by reflexivity.
  assert (Hl : Z.of_nat (length [true; false; true])
               = Integer.nbits Integer_0_4) by reflexivity.
  assert (Hw : 2 ^ (Integer.nbits Integer_0_4 - 1) <= 4 - 0)
    by (intros Hc; discriminate Hc).
  split.
  - exact (conj H04 (conj Hi (conj Hl (conj Hw
      (proj2 (proj2 (proj1 (Integer_decode_total Z.log2) 0 4 Integer_0_4
                       [true; false; true] H04 Hi Hl)) Hw))))).
  - exact (proj1 (proj2 (proj2
      (proj2 (Integer_decode_total (fun _ => 48)) eq_refl)))).
Defined.

End IntegerDecode.

(** * The scenario [Integer(0, 4)] *)

Section Integer04.
Local Open Scope Z_scope.

(** C2, as the code has it.  [Integer(0, 4)] has [nbits = 3]
    ([math.log(4, 2)] is 2.0); the five values 0..4 round-trip; the three
    remaining 3-bit patterns, whose Gray-decoded values are 5, 6 and 7,
    decode to 1, 2 and 3: the wrap subtracts
    [max_value - min_value = 4]. *)
Theorem Integer_0_4_scenario :
  (forall flog2, flog2 4 = 2 -> Integer.init flog2 0 4 = Ok Integer_0_4) /\
  Integer.nbits Integer_0_4 = 3 /\
  map (round_trip Integer_0_4) [0; 1; 2; 3; 4]
    = [Ok 0; Ok 1; Ok 2; Ok 3; Ok 4] /\
  map (fun bits => (length bits, bin2int (gray2bin bits),
                    Integer.decode Integer_0_4 bits))
      [[true; true; true]; [true; false; true]; [true; false; false]]
    = [(3%nat, 5, 1); (3%nat, 6, 2); (3%nat, 7, 3)].
Proof.
  split; [|repeat split].
  intros flog2 Hlog. rewrite Integer_init_ok by reflexivity.
  change (4 - 0) with 4. now rewrite Hlog.
Qed.

Lemma Integer_0_4_scenario_witness :
  Z.log2 4 = 2 /\ Integer.init Z.log2 0 4 = Ok Integer_0_4.
Proof.
  exact (conj eq_refl (proj1 Integer_0_4_scenario Z.log2 eq_refl)).
Defined.

(** C2 as stated fails: the 3-bit pattern whose Gray-decoded value is 5
    does not decode to 0. *)
Lemma Integer_0_4_wrap_counterexample :
  exists bits,
    length bits = 3%nat /\ bin2int (gray2bin bits) = 5 /\
    Integer.decode Integer_0_4 bits <> 0.
Proof. exists [true; true; true]. repeat split. discriminate. Qed.

End Integer04.

(** * Gray-code adjacency *)

Section Adjacency.
Local Open Scope Z_scope.

Lemma hamming_refl a : hamming a a = 0%nat.
Proof. induction a as [|x a IH]; simpl; [done|]. now rewrite eqb_reflx. Qed.

Lemma hamming_snoc a b x y :
  length a = length b ->
  hamming (a ++ [x]) (b ++ [y])
    = (hamming a b + (if Bool.eqb x y then 0 else 1))%nat.
Proof.
  revert b. induction a as [|u a IH]; intros [|v b] Hlen;
    simpl in *; try discriminate.
  - lia.
  - rewrite IH by congruence. lia.
Qed.

Lemma hamming_zero a b :
  length a = length b -> hamming a b = 0%nat -> a = b.
Proof.
  revert b. induction a as [|x a IH]; intros [|y b] Hlen Hh;
    simpl in *; try discriminate; [done|].
  destruct (Bool.eqb x y) eqn:Hxy; [|lia].
  apply eqb_prop in Hxy as ->. f_equal. apply IH; [congruence | lia].
Qed.

(** Distance one means: a single index at which the sequences differ. *)
Lemma hamming_one a b :
  length a = length b -> hamming a b = 1%nat ->
  exists i : nat, forall j : nat, a !! j <> b !! j <-> j = i.
Proof.
  revert b. induction a as [|x a IH]; intros [|y b] Hlen Hh;
    simpl in *; try discriminate.
  destruct (Bool.eqb x y) eqn:Hxy.
  - apply eqb_prop in Hxy as ->.
    destruct (IH b) as [i Hi]; [congruence | lia |].
    exists (S i). intros [|j]; simpl.
    + split; [congruence | discriminate].
    + rewrite Hi. lia.
  - apply eqb_false_iff in Hxy.
    assert (a = b) as -> by (apply hamming_zero; [congruence | lia]).
    exists 0%nat. intros [|j]; simpl.
    + split; [done | congruence].
    + split; [congruence | discriminate].
Qed.

Lemma length_bin2gray_from prev bits :
  length (bin2gray_from prev bits) = length bits.
Proof.
  revert prev. induction bits as [|b rest IH]; intros prev; simpl; auto.
Qed.

Lemma length_bin2gray bits : length (bin2gray bits) = length bits.
Proof.
  destruct bits; simpl; [done|]. now rewrite length_bin2gray_from.
Qed.

Lemma bin2gray_from_false bits : bin2gray bits = bin2gray_from false bits.
Proof. destruct bits as [|b rest]; simpl; [done|]. now rewrite xorb_false_r. Qed.

Lemma last_cons_default {A} (l : list A) a d :
  List.last (a :: l) d = List.last l a.
Proof.
  revert a d. induction l as [|b l IH]; intros a d; [done|].
  change (List.last (a :: b :: l) d) with (List.last (b :: l) d).
  now rewrite !IH.
Qed.

(** The last Gray bit combines the last two input bits. *)
Lemma bin2gray_from_snoc prev bits b :
  bin2gray_from prev (bits ++ [b])
    = bin2gray_from prev bits ++ [xorb b (List.last bits prev)].
Proof.
  revert prev. induction bits as [|c rest IH]; intros prev; [done|].
  change ((c :: rest) ++ [b]) with (c :: (rest ++ [b])).
  cbn [bin2gray_from app]. now rewrite IH, last_cons_default.
Qed.

Lemma last_bits_be w v :
  0 <= v < 2 ^ Z.of_nat w -> List.last (bits_be w v) false = Z.odd v.
Proof.
  destruct w as [|w]; intros Hv.
  - simpl in *. assert (v = 0) as -> by lia. done.
  - rewrite bits_be_snoc. apply last_last.
Qed.

Lemma gray_be_S w v :
  0 <= v < 2 ^ Z.of_nat (S w) ->
  gray_be (S w) v
    = gray_be w (Z.div2 v) ++ [xorb (Z.odd v) (Z.odd (Z.div2 v))].
Proof.
  intros Hv. unfold gray_be.
  rewrite !bin2gray_from_false, bits_be_snoc, bin2gray_from_snoc.
  rewrite last_bits_be; [done|].
  rewrite Nat2Z.inj_succ, Z.pow_succ_r in Hv by lia.
  rewrite Z.div2_div. split.
  - apply Z.div_pos; lia.
  - apply Z.div_lt_upper_bound; lia.
Qed.

Lemma length_gray_be w v : length (gray_be w v) = w.
Proof. unfold gray_be. now rewrite length_bin2gray, length_bits_be. Qed.

(** Consecutive numbers have Gray codes at distance one. *)
Lemma gray_be_adjacent w v :
  0 <= v -> v + 1 < 2 ^ Z.of_nat w ->
  hamming (gray_be w v) (gray_be w (v + 1)) = 1%nat.
Proof.
  revert v. induction w as [|w IH]; intros v Hv Hlt.
  - simpl in Hlt. lia.
  - assert (Hpow : 2 ^ Z.of_nat (S w) = 2 * 2 ^ Z.of_nat w)
      by (rewrite Nat2Z.inj_succ, Z.pow_succ_r; lia).
    rewrite !gray_be_S by lia.
    rewrite hamming_snoc by (now rewrite !length_gray_be).
    pose proof (Z.div2_odd v) as Hd.
    rewrite Z.add_1_r, Z.odd_succ, <- Z.negb_odd.
    destruct (Z.odd v) eqn:Hodd; simpl Z.b2z in Hd; simpl negb.
    + (* v = 2k+1: the carry propagates into the high bits *)
      assert (Hk : Z.div2 (Z.succ v) = Z.div2 v + 1).
      { rewrite !Z.div2_div in *. Z.div_mod_to_equations. lia. }
      rewrite Hk, IH by (rewrite ?Z.div2_div in *; lia).
      rewrite Z.add_1_r, Z.odd_succ, <- Z.negb_odd.
      destruct (Z.odd (Z.div2 v)); done.
    + (* v = 2k: only the last bit changes *)
      assert (Hk : Z.div2 (Z.succ v) = Z.div2 v).
      { rewrite !Z.div2_div in *. Z.div_mod_to_equations. lia. }
      rewrite Hk, hamming_refl.
      destruct (Z.odd (Z.div2 v)); done.
Qed.

(** Adjacency on an instance whose width has room for the range. *)
Lemma Integer_adjacent self v :
  Integer.min_value self <= v -> v + 1 <= Integer.max_value self ->
  Integer.max_value self - Integer.min_value self < 2 ^ Integer.nbits self ->
  exists b1 b2,
    Integer.encode self v = Ok b1 /\
    Integer.encode self (v + 1) = Ok b2 /\
    length b1 = length b2 /\
    hamming b1 b2 = 1%nat /\
    exists i : nat, forall j : nat, b1 !! j <> b2 !! j <-> j = i.
Proof.
  intros Hlo Hhi Hroom.
  assert (Hn : 0 <= Integer.nbits self)
    by (eapply nbits_nonneg_of_room with
          (d := Integer.max_value self - Integer.min_value self); lia).
  do 2 eexists.
  split; [apply Integer_encode_ok; lia|].
  split; [apply Integer_encode_ok; lia|].
  fold (gray_be (Z.to_nat (Integer.nbits self)) (v - Integer.min_value self)).
  fold (gray_be (Z.to_nat (Integer.nbits self))
                (v + 1 - Integer.min_value self)).
  assert (Hlen : length (gray_be (Z.to_nat (Integer.nbits self))
                                 (v - Integer.min_value self))
                 = length (gray_be (Z.to_nat (Integer.nbits self))
                                   (v + 1 - Integer.min_value self)))
    by now rewrite !length_gray_be.
  assert (Hham : hamming (gray_be (Z.to_nat (Integer.nbits self))
                                  (v - Integer.min_value self))
                         (gray_be (Z.to_nat (Integer.nbits self))
                                  (v + 1 - Integer.min_value self)) = 1%nat).
  { replace (v + 1 - Integer.min_value self)
      with (v - Integer.min_value self + 1) by lia.
    apply gray_be_adjacent; rewrite ?Z2Nat.id; lia. }
  auto using hamming_one.
Qed.



End Adjacency.

(** * [Integer.encode] outside of the range *)

Section IntegerEncodeDomain.
Local Open Scope Z_scope.

(** C5, as the code has it.  [encode] makes no check against
    [max_value]: a value whose offset [value - min_value] exceeds
    [max_value - min_value] and still fits the width is Gray-encoded
    without error, and [decode] maps its code to
    [value - (max_value - min_value)]. *)
Theorem Integer_encode_domain flog2 lo hi self v :
  Integer.init flog2 lo hi = Ok self ->
  hi - lo < v - lo < 2 ^ Integer.nbits self ->
  exists bits,
    Integer.encode self v = Ok bits /\
    Integer.decode self bits = v - (hi - lo).
Proof.
  intros Hinit Hv.
  apply Integer_init_inv in Hinit as (Hlt & Hmin & Hmax & _).
  assert (Hn : 0 <= Integer.nbits self)
    by (eapply nbits_nonneg_of_room with (d := v - lo); lia).
  eexists. split; [apply Integer_encode_ok; lia|].
  unfold Integer.decode.
  rewrite gray2bin_bin2gray, bin2int_bits_be by (rewrite Z2Nat.id; lia).
  rewrite Hmin, Hmax. rewrite decide_True by lia. lia.
Qed.

Lemma Integer_encode_domain_witness :
  Integer.init Z.log2 0 4 = Ok Integer_0_4 /\
  4 - 0 < 6 - 0 < 2 ^ Integer.nbits Integer_0_4 /\
  exists bits,
    Integer.encode Integer_0_4 6 = Ok bits /\
    Integer.decode Integer_0_4 bits = 6 - (4 - 0).
Proof.
  assert (Hi : Integer.init Z.log2 0 4 = Ok Integer_0_4) by reflexivity.
  assert (Hv : 4 - 0 < 6 - 0 < 2 ^ Integer.nbits Integer_0_4)
    by (split; reflexivity).
  exact (conj Hi (conj Hv
           (Integer_encode_domain Z.log2 0 4 Integer_0_4 6 Hi Hv))).
Defined.

(** C5 as stated fails: 5 is outside of the range of [Integer(0, 4)],
    and [encode(5)] returns a code, which decodes to 1. *)
Lemma Integer_encode_out_of_range_counterexample :
  5 - Integer.min_value Integer_0_4
    > Integer.max_value Integer_0_4 - Integer.min_value Integer_0_4 /\
  Integer.encode Integer_0_4 5 = Ok [true; true; true] /\
  Integer.decode Integer_0_4 [true; true; true] = 1.
Proof. repeat split. Qed.

End IntegerEncodeDomain.

(** * Clamping in [Real_Normal] and [Real_T] *)

Section Clamp.
Local Open Scope Q_scope.

Lemma flt_true a b : flt a b = true <-> a < b.
Proof.
  unfold flt. rewrite Qlt_alt. destruct (a ?= b); split; congruence.
Qed.

Lemma flt_false a b : flt a b = false <-> b <= a.
Proof.
  rewrite <- not_true_iff_false, flt_true. split.
  - apply Qnot_lt_le.
  - intros H1 H2. exact (Qle_not_lt _ _ H1 H2).
Qed.

(** With bounds in the wrong order the second clamp wins. *)
Lemma clamp_min_max_inverted value lo hi :
  hi < lo -> clamp_min_max value lo hi = hi.
Proof.
  intros Hinv. unfold clamp_min_max, min2, max2.
  destruct (flt value lo) eqn:Hv.
  - now rewrite (proj2 (flt_true hi lo)).
  - apply flt_false in Hv.
    rewrite (proj2 (flt_true hi value)); [done|].
    eapply Qlt_le_trans; eauto.
Qed.

Lemma clamp_min_max_ordered value lo hi :
  lo <= hi ->
  lo <= clamp_min_max value lo hi <= hi /\
  (lo <= value <= hi -> clamp_min_max value lo hi = value).
Proof.
  intros Hord. unfold clamp_min_max, min2, max2.
  destruct (flt value lo) eqn:Hv.
  - apply flt_true in Hv.
    rewrite (proj2 (flt_false hi lo)) by done.
    repeat split; [apply Qle_refl | done |].
    intros [H1 _]. exfalso. exact (Qle_not_lt _ _ H1 Hv).
  - apply flt_false in Hv.
    destruct (flt hi value) eqn:Hh.
    + apply flt_true in Hh.
      repeat split; [done | apply Qle_refl |].
      intros [_ H2]. exfalso. exact (Qle_not_lt _ _ H2 Hh).
    + apply flt_false in Hh. repeat split; done.
Qed.

(** C6, as the code has it.  [Real_T.rand], and [Real_Normal.rand] when
    the noise is active ([spread > 0] and a falsy [clamp[0]]), clamp the
    drawn value to [min_value] first and to [max_value] second and raise
    no error; with [min_value > max_value] the result is [max_value]. *)
Theorem Real_rand_clamp_order :
  (forall fadd (self : Real_T.t) standard_t,
     let r := Real_T.rand fadd self standard_t in
     r = min2 (max2 (fadd standard_t (Real_T.default_value self))
                    (Real_T.min_value self))
              (Real_T.max_value self) /\
     (Real_T.max_value self < Real_T.min_value self ->
        r = Real_T.max_value self)) /\
  (forall (self : Real_Normal.t) normal flags,
     0 < Real_Normal.spread self ->
     Real_Normal.clamp self = Some (false :: flags) ->
     exists r,
       Real_Normal.rand self normal = Ok r /\
       r = min2 (max2 normal (Real_Normal.min_value self))
                (Real_Normal.max_value self) /\
       (Real_Normal.max_value self < Real_Normal.min_value self ->
          r = Real_Normal.max_value self)).
Proof.
  split.
  - intros fadd self t r. split; [done|].
    apply clamp_min_max_inverted.
  - intros self normal flags Hs Hc.
    eexists. unfold Real_Normal.rand.
    rewrite (proj2 (flt_true _ _) Hs), Hc. simpl.
    split; [reflexivity|]. split; [done|].
    apply clamp_min_max_inverted.
Qed.

Lemma Real_rand_clamp_order_witness :
  Real_T.rand Qplus Real_T_5_1 (3 # 1) = 1 # 1 /\
  exists r, Real_Normal.rand Real_Normal_5_1 (3 # 1) = Ok r /\ r = 1 # 1.
Proof.
  split.
  - apply (proj2 (proj1 Real_rand_clamp_order Qplus Real_T_5_1 (3 # 1))).
    reflexivity.
  - assert (Hs : 0 < Real_Normal.spread Real_Normal_5_1) by reflexivity.
    assert (Hc : Real_Normal.clamp Real_Normal_5_1 = Some [false; false])
      by reflexivity.
    destruct (proj2 Real_rand_clamp_order Real_Normal_5_1 (3 # 1) [false]
                Hs Hc) as (r & Hr & _ & Hinv).
    exists r. split; [exact Hr|]. apply Hinv. reflexivity.
Defined.

(** C6 as stated fails: with [min_value = 5 > max_value = 1] and a draw
    of 3, both [rand]s return 1, which is [max_value] and not
    [min_value]. *)
Lemma Real_rand_inverted_bounds_counterexample :
  Real_T.max_value Real_T_5_1 < Real_T.min_value Real_T_5_1 /\
  Real_T.rand Qplus Real_T_5_1 (3 # 1) = 1 # 1 /\
  Real_Normal.rand Real_Normal_5_1 (3 # 1) = Ok (1 # 1) /\
  ~ (1 # 1 == Real_T.min_value Real_T_5_1) /\
  ~ (1 # 1 == Real_Normal.min_value Real_Normal_5_1).
Proof. repeat split; discriminate. Qed.

End Clamp.

(** * [Real_Normal] with the default [clamp] *)

Section RealNormalDefaultClamp.
Local Open Scope Q_scope.

(** C10.  A [Real_Normal] built with the default [clamp] ([None])
    raises [TypeError] at every [rand()] when [spread > 0], whatever the
    draw: [self.clamp[0]] subscripts [None].  With [spread <= 0] the
    subscript is not evaluated and [rand()] returns [default_value], the
    float of the constructor's argument. *)
Theorem Real_Normal_rand_default_clamp to_float lo hi d s self normal :
  Real_Normal.init to_float lo hi d s Real_Normal.default_clamp = Ok self ->
  (0 < s -> Real_Normal.rand self normal = Raise TypeError) /\
  (s <= 0 ->
     exists d', to_float d = Ok d' /\ Real_Normal.rand self normal = Ok d').
Proof.
  unfold Real_Normal.init.
  destruct (to_float lo) as [lo'|]; [|discriminate].
  destruct (to_float hi) as [hi'|]; [|discriminate].
  destruct (to_float d) as [d'|]; [|discriminate].
  intros [= <-]. unfold Real_Normal.rand. simpl. split; intros Hs.
  - now rewrite (proj2 (flt_true _ _) Hs).
  - exists d'. now rewrite (proj2 (flt_false _ _) Hs).
Qed.

Lemma Real_Normal_rand_default_clamp_witness :
  Real_Normal.init Ok (0 # 1) (10 # 1) (2 # 1) Real_Normal.default_spread
    Real_Normal.default_clamp = Ok Real_Normal_defaults /\
  0 < Real_Normal.default_spread /\
  Real_Normal.rand Real_Normal_defaults (3 # 1) = Raise TypeError.
Proof.
  assert (Hi : Real_Normal.init Ok (0 # 1) (10 # 1) (2 # 1)
                 Real_Normal.default_spread Real_Normal.default_clamp
               = Ok Real_Normal_defaults) by reflexivity.
  assert (Hs : 0 < Real_Normal.default_spread) by reflexivity.
  exact (conj Hi (conj Hs
    (proj1 (Real_Normal_rand_default_clamp _ _ _ _ _ _ (3 # 1) Hi) Hs))).
Defined.

End RealNormalDefaultClamp.

(** * Construction *)

Section Construction.




End Construction.

(** * [Subset.rand] *)

Section SubsetRand.
Context {A : Type}.
Implicit Types (self : Subset.t A) (shuffled : list nat) (out : list A).

Lemma elem_of_range i start stop :
  i ∈ range start stop <-> (start <= i < stop)%nat.
Proof. unfold range. rewrite elem_of_seq. lia. Qed.

Lemma length_range start stop :
  length (range start stop) = (stop - start)%nat.
Proof. unfold range. apply length_seq. Qed.

(** A slice holds items of the list only. *)
Lemma elem_of_slice_to {B} (l : list B) n x : x ∈ slice_to l n -> x ∈ l.
Proof.
  unfold slice_to. destruct (decide _); intros Hx;
    eapply elem_of_sublist; eauto using sublist_take.
Qed.

Lemma length_slice_to_nonneg {B} (l : list B) n :
  (0 <= n)%Z -> length (slice_to l n) = Nat.min (Z.to_nat n) (length l).
Proof.
  intros Hn. unfold slice_to. rewrite decide_True by done.
  apply length_take.
Qed.

(** The selected indices come from [range(1, len(elements))]. *)
Lemma selected_bounds self shuffled i :
  Subset.indices self ≡ₚ shuffled ->
  i ∈ Subset.selected self shuffled ->
  (1 <= i < length (Subset.elements self))%nat.
Proof.
  intros Hperm Hi. apply elem_of_slice_to in Hi.
  rewrite <- Hperm in Hi. now apply elem_of_range in Hi.
Qed.

Lemma mapM_result_cons {B C} (f : B -> result C) x l :
  mapM f (x :: l) = y ← f x; k ← mapM f l; mret (y :: k).
Proof. reflexivity. Qed.

(** The comprehension [[l[i] for i in idx]] with indices in bounds. *)
Lemma mapM_getitem_ok (P : nat -> Prop) (l : list A) (idx : list nat) :
  Forall (fun i => P i /\ (i < length l)%nat) idx ->
  exists out,
    mapM (getitem l) idx = Ok out /\
    Forall2 (fun i x => P i /\ l !! i = Some x) idx out.
Proof.
  induction 1 as [|i idx [HP Hi] _ (out & IHm & IHf)].
  - exists []. split; [done | constructor].
  - destruct (lookup_lt_is_Some_2 l i Hi) as [x Hx].
    exists (x :: out). split.
    + rewrite mapM_result_cons, IHm. unfold getitem. now rewrite Hx.
    + now constructor.
Qed.

(** [rand] raises no [IndexError], and returns the elements at the
    selected indices, which are all from 1 on. *)
Lemma Subset_rand_ok self shuffled :
  Subset.indices self ≡ₚ shuffled ->
  exists out,
    Subset.rand self shuffled = Ok out /\
    Forall2 (fun i x => (1 <= i)%nat /\ Subset.elements self !! i = Some x)
            (Subset.selected self shuffled) out.
Proof.
  intros Hperm. apply mapM_getitem_ok, Forall_forall.
  intros i Hi. eapply selected_bounds; eauto.
Qed.

(** The number of returned elements, for a non-negative [size]: at most
    [len(elements) - 1] indices are available. *)
Lemma Subset_rand_length self out :
  (0 <= Subset.size self)%Z ->
  Subset.rand_outcome self out ->
  length out = Nat.min (Z.to_nat (Subset.size self))
                       (length (Subset.elements self) - 1).
Proof.
  intros Hsize (shuffled & Hperm & Hout).
  destruct (Subset_rand_ok self shuffled Hperm) as (out' & Hout' & Hf).
  assert (out' = out) as -> by congruence.
  rewrite <- (Forall2_length _ _ _ Hf).
  unfold Subset.selected. rewrite length_slice_to_nonneg by done.
  rewrite <- (Permutation_length Hperm).
  unfold Subset.indices. now rewrite length_range.
Qed.

(** C8.  Whatever the instance and whatever the shuffle, index 0 is not
    among the selected indices: [rand] succeeds and each returned
    element sits at an index from 1 on. *)
Theorem Subset_rand_excludes_index_0 self shuffled :
  Subset.indices self ≡ₚ shuffled ->
  (0%nat ∉ Subset.selected self shuffled) /\
  exists out,
    Subset.rand self shuffled = Ok out /\
    Forall2 (fun i x => (1 <= i)%nat /\ Subset.elements self !! i = Some x)
            (Subset.selected self shuffled) out.
Proof.
  intros Hperm. split.
  - intros H0. apply (selected_bounds _ _ _ Hperm) in H0. lia.
  - now apply Subset_rand_ok.
Qed.

End SubsetRand.

Section SubsetScenarios.
Local Open Scope string_scope.

(** C7 at [Subset(['a', 'b'], 2)].  Every outcome of [rand()] is
    [['b']]: one element where the size asks for two, because the
    shuffled indices start at 1. *)
Theorem Subset_rand_short_of_size out :
  Subset.rand_outcome Subset_ab_2 out ->
  out = ["b"] /\
  Z.of_nat (length out) <> Subset.size Subset_ab_2.
Proof.
  intros (shuffled & Hperm & Hout).
  change (Subset.indices Subset_ab_2) with [1%nat] in Hperm.
  apply Permutation_singleton_l in Hperm as <-.
  cbv in Hout. injection Hout as <-. split; [done | discriminate].
Qed.

Lemma Subset_rand_short_of_size_witness :
  Subset.rand_outcome Subset_ab_2 ["b"] /\
  Z.of_nat (length ["b"]) <> Subset.size Subset_ab_2.
Proof.
  assert (Ho : Subset.rand_outcome Subset_ab_2 ["b"]).
  { exists [1%nat]. split; [apply Permutation_refl | reflexivity]. }
  exact (conj Ho (proj2 (Subset_rand_short_of_size ["b"] Ho))).
Defined.

Lemma Subset_rand_excludes_index_0_witness :
  Subset.indices Subset_ab_2 ≡ₚ [1%nat] /\
  (0%nat ∉ Subset.selected Subset_ab_2 [1%nat]).
Proof.
  assert (Hp : Subset.indices Subset_ab_2 ≡ₚ [1%nat])
    by apply Permutation_refl.
  exact (conj Hp (proj1 (Subset_rand_excludes_index_0 Subset_ab_2 _ Hp))).
Defined.

End SubsetScenarios.

(** * More on [Integer]: construction, [rand], and the codes *)

Section IntegerCodes.
Local Open Scope Z_scope.

Lemma bin2gray_from_gray2bin_acc prev bits :
  bin2gray_from prev (gray2bin_acc prev bits) = bits.
Proof.
  revert prev. induction bits as [|g rest IH]; intros prev; simpl; [done|].
  rewrite IH. f_equal. destruct prev, g; done.
Qed.

Lemma bin2gray_gray2bin bits : bin2gray (gray2bin bits) = bits.
Proof.
  rewrite bin2gray_from_false. apply bin2gray_from_gray2bin_acc.
Qed.

Lemma Integer_encode_length self v bits :
  Integer.encode self v = Ok bits ->
  length bits = Z.to_nat (Integer.nbits self).
Proof.
  unfold Integer.encode, int2bin.
  destruct (decide _); [|discriminate]. intros [= <-].
  now rewrite length_bin2gray, length_bits_be.
Qed.

(** [Integer(min, max)] raises [ValueError] exactly when
    [max_value <= min_value]; otherwise the instance holds the bounds and
    the width [int(math.log(max - min, 2)) + 1].  Where that logarithm is
    the floor of the exact one, the width is at least 1 and the least one
    that has room for [max_value - min_value]. *)
Theorem Integer_init_domain flog2 lo hi :
  (hi <= lo -> Integer.init flog2 lo hi = Raise ValueError) /\
  (lo < hi ->
     exists self,
       Integer.init flog2 lo hi = Ok self /\
       Integer.min_value self = lo /\ Integer.max_value self = hi /\
       Integer.nbits self = flog2 (hi - lo) + 1 /\
       (flog2 (hi - lo) = Z.log2 (hi - lo) ->
          1 <= Integer.nbits self /\
          2 ^ (Integer.nbits self - 1) <= hi - lo < 2 ^ Integer.nbits self)).
Proof.
  split; intros H.
  - unfold Integer.init, int_log2. now rewrite decide_False by lia.
  - eexists. split; [now apply Integer_init_ok|].
    repeat split; try reflexivity;
      eapply Integer_nbits_bounds; eauto using Integer_init_ok.
Qed.

Lemma Integer_init_domain_witness :
  Integer.init Z.log2 3 3 = Raise ValueError /\
  exists self, Integer.init Z.log2 0 4 = Ok self /\ Integer.nbits self >= 1.
Proof.
  split.
  - apply (proj1 (Integer_init_domain Z.log2 3 3)).
    intros Hc. discriminate Hc.
  - destruct (proj2 (Integer_init_domain Z.log2 0 4) eq_refl)
      as (self & Hi & _ & _ & _ & Hn).
    exists self. split; [exact Hi | apply Z.le_ge, (Hn eq_refl)].
Defined.

(** On an [Integer] whose width has room for the range, [rand()] returns
    a sequence of [nbits] bits that decodes to the integer that
    [random.randint] drew. *)
Theorem Integer_rand_decodes flog2 lo hi self randint :
  Integer.init flog2 lo hi = Ok self ->
  lo <= randint <= hi ->
  hi - lo < 2 ^ Integer.nbits self ->
  exists bits,
    Integer.rand self randint = Ok bits /\
    Z.of_nat (length bits) = Integer.nbits self /\
    Integer.decode self bits = randint.
Proof.
  intros Hinit Hv Hroom.
  apply Integer_init_inv in Hinit as (_ & Hmin & Hmax & _).
  destruct (Integer_round_trip self randint) as (bits & He & Hd);
    [lia | lia |].
  exists bits. unfold Integer.rand. repeat split; [done | | done].
  rewrite (Integer_encode_length _ _ _ He), Z2Nat.id; [done|].
  eapply nbits_nonneg_of_room with (d := hi - lo). lia.
Qed.

Lemma Integer_rand_decodes_witness :
  Integer.init Z.log2 0 4 = Ok Integer_0_4 /\ 0 <= 2 <= 4 /\
  4 - 0 < 2 ^ Integer.nbits Integer_0_4 /\
  exists bits,
    Integer.rand Integer_0_4 2 = Ok bits /\
    Z.of_nat (length bits) = Integer.nbits Integer_0_4 /\
    Integer.decode Integer_0_4 bits = 2.
Proof.
  assert (Hi : Integer.init Z.log2 0 4 = Ok Integer_0_4) by reflexivity.
  assert (Hv : 0 <= 2 <= 4) by lia.
  assert (Hr : 4 - 0 < 2 ^ Integer.nbits Integer_0_4) by reflexivity.
  exact (conj Hi (conj Hv (conj Hr
           (Integer_rand_decodes Z.log2 0 4 Integer_0_4 2 Hi Hv Hr)))).
Defined.

(** The round trip in the other direction: a sequence of [nbits] bits
    whose Gray-decoded offset does not exceed [max_value - min_value] is
    the code of the integer it decodes to. *)
Theorem Integer_encode_decode flog2 lo hi self bits :
  Integer.init flog2 lo hi = Ok self ->
  Z.of_nat (length bits) = Integer.nbits self ->
  bin2int (gray2bin bits) <= hi - lo ->
  Integer.encode self (Integer.decode self bits) = Ok bits.
Proof.
  intros Hinit Hlen Hoff.
  apply Integer_init_inv in Hinit as (_ & Hmin & Hmax & _).
  pose proof (bin2int_range (gray2bin bits)) as Hr.
  rewrite length_gray2bin, Hlen in Hr.
  unfold Integer.decode. rewrite Hmin, Hmax, decide_False by lia.
  rewrite Integer_encode_ok by (rewrite Hmin; lia).
  rewrite Hmin, <- Hlen, Nat2Z.id.
  replace (lo + bin2int (gray2bin bits) - lo)
    with (bin2int (gray2bin bits)) by lia.
  rewrite <- (length_gray2bin bits), bits_be_bin2int.
  now rewrite bin2gray_gray2bin.
Qed.

Lemma Integer_encode_decode_witness :
  Integer.init Z.log2 0 4 = Ok Integer_0_4 /\
  Integer.encode Integer_0_4 (Integer.decode Integer_0_4 [false; true; true])
    = Ok [false; true; true].
Proof.
  assert (Hi : Integer.init Z.log2 0 4 = Ok Integer_0_4) by reflexivity.
  refine (conj Hi (Integer_encode_decode Z.log2 0 4 Integer_0_4
                     [false; true; true] Hi eq_refl _)).
  intros Hc. discriminate Hc.
Defined.

(** [decode] is not injective on the whole width: a sequence whose
    Gray-decoded offset exceeds [max_value - min_value], by no more than
    [max_value - min_value], decodes to a value above [min_value] that
    has another code, the one [encode] gives. *)
Theorem Integer_decode_collision flog2 lo hi self bits :
  Integer.init flog2 lo hi = Ok self ->
  Z.of_nat (length bits) = Integer.nbits self ->
  hi - lo < bin2int (gray2bin bits) <= 2 * (hi - lo) ->
  lo < Integer.decode self bits <= hi /\
  exists bits',
    Integer.encode self (Integer.decode self bits) = Ok bits' /\
    bits' <> bits /\
    Integer.decode self bits' = Integer.decode self bits.
Proof.
  intros Hinit Hlen Hoff.
  apply Integer_init_inv in Hinit as (Hlt & Hmin & Hmax & _).
  pose proof (bin2int_range (gray2bin bits)) as Hr.
  rewrite length_gray2bin, Hlen in Hr.
  assert (Hn : 0 <= Integer.nbits self)
    by (eapply nbits_nonneg_of_room with
          (d := bin2int (gray2bin bits)); lia).
  assert (Hdec : Integer.decode self bits
                 = lo + (bin2int (gray2bin bits) - (hi - lo))).
  { unfold Integer.decode. now rewrite Hmin, Hmax, decide_True by lia. }
  split; [lia|].
  eexists. split; [apply Integer_encode_ok; lia|].
  assert (Hb : bin2int (bits_be (Z.to_nat (Integer.nbits self))
                 (Integer.decode self bits - Integer.min_value self))
               = Integer.decode self bits - Integer.min_value self)
    by (apply bin2int_bits_be; rewrite Z2Nat.id; lia).
  split.
  - intros Heq. apply (f_equal (fun b => bin2int (gray2bin b))) in Heq.
    rewrite gray2bin_bin2gray, Hb in Heq. lia.
  - rewrite Integer_decode_bin2gray; rewrite Hb; lia.
Qed.

Lemma Integer_decode_collision_witness :
  Integer.init Z.log2 0 4 = Ok Integer_0_4 /\
  4 - 0 < bin2int (gray2bin [true; false; false]) <= 2 * (4 - 0) /\
  0 < Integer.decode Integer_0_4 [true; false; false] <= 4 /\
  exists bits',
    Integer.encode Integer_0_4 (Integer.decode Integer_0_4 [true; false; false])
      = Ok bits' /\
    bits' <> [true; false; false] /\
    Integer.decode Integer_0_4 bits'
      = Integer.decode Integer_0_4 [true; false; false].
Proof.
  assert (Hi : Integer.init Z.log2 0 4 = Ok Integer_0_4) by reflexivity.
  assert (Ho : 4 - 0 < bin2int (gray2bin [true; false; false]) <= 2 * (4 - 0))
    by (split; [reflexivity | intros Hc; discriminate Hc]).
  exact (conj Hi (conj Ho (Integer_decode_collision Z.log2 0 4 Integer_0_4
                    [true; false; false] Hi eq_refl Ho))).
Defined.

(** Two integers with the same code are equal, in and out of the range. *)
Theorem Integer_encode_injective self v1 v2 bits :
  Integer.encode self v1 = Ok bits ->
  Integer.encode self v2 = Ok bits ->
  v1 = v2.
Proof.
  unfold Integer.encode. intros H1 H2.
  destruct (int2bin (v1 - Integer.min_value self) (Integer.nbits self))
    as [b1|] eqn:E1; [|discriminate].
  destruct (int2bin (v2 - Integer.min_value self) (Integer.nbits self))
    as [b2|] eqn:E2; [|discriminate].
  simpl in H1, H2. injection H1 as H1. injection H2 as H2.
  apply bin2int_int2bin in E1, E2.
  assert (b1 = b2)
    by (rewrite <- (gray2bin_bin2gray b1), <- (gray2bin_bin2gray b2);
        congruence).
  subst b2. lia.
Qed.

Lemma Integer_encode_injective_witness :
  Integer.encode Integer_0_4 3 = Ok [false; true; false] /\ 3 = 3.
Proof.
  assert (He : Integer.encode Integer_0_4 3 = Ok [false; true; false])
    by reflexivity.
  exact (conj He (Integer_encode_injective Integer_0_4 3 3 _ He He)).
Defined.

End IntegerCodes.

(** * [Binary.rand] *)

Section BinaryRand.

(** [rand()] of a [Binary] returns one boolean per position below
    [nbits], the [i]-th being the [i]-th draw; with a width of zero or
    below it returns the empty list and raises nothing. *)
Theorem Binary_rand_shape (self : Binary.t) (coin : nat -> bool) :
  Z.of_nat (length (Binary.rand self coin)) = Z.max 0 (Binary.nbits self) /\
  ((Binary.nbits self <= 0)%Z -> Binary.rand self coin = []) /\
  (forall i : nat, (Z.of_nat i < Binary.nbits self)%Z ->
     Binary.rand self coin !! i = Some (coin i)).
Proof.
  unfold Binary.rand. repeat split.
  - rewrite length_map, length_seq. lia.
  - intros Hn. now replace (Z.to_nat (Binary.nbits self)) with 0%nat by lia.
  - intros i Hi. rewrite list_lookup_fmap, lookup_seq_lt by lia. done.
Qed.

Lemma Binary_rand_shape_witness :
  Binary.rand {| Binary.nbits := -3 |} (fun _ => true) = [] /\
  Binary.rand {| Binary.nbits := 4 |} Nat.even !! 2%nat = Some true.
Proof.
  split.
  - apply (proj1 (proj2 (Binary_rand_shape {| Binary.nbits := -3 |}
                           (fun _ => true)))).
    intros Hc. discriminate Hc.
  - apply (proj2 (proj2 (Binary_rand_shape {| Binary.nbits := 4 |} Nat.even))
             2%nat).
    reflexivity.
Defined.

End BinaryRand.

(** * More on [Real_Normal.rand] and [Real_T.rand] *)

Section RealRand.
Local Open Scope Q_scope.

Lemma clamp_min_max_below value lo hi :
  lo <= hi -> value < lo -> clamp_min_max value lo hi = lo.
Proof.
  intros Hord Hv. unfold clamp_min_max, min2, max2.
  rewrite (proj2 (flt_true _ _) Hv).
  now rewrite (proj2 (flt_false _ _) Hord).
Qed.

Lemma clamp_min_max_above value lo hi :
  lo <= hi -> hi < value -> clamp_min_max value lo hi = hi.
Proof.
  intros Hord Hv. unfold clamp_min_max, min2, max2.
  rewrite (proj2 (flt_false value lo))
    by (apply Qlt_le_weak; eapply Qle_lt_trans; eauto).
  now rewrite (proj2 (flt_true _ _) Hv).
Qed.

(** [Real_Normal.rand] raises exactly when [spread > 0] and [clamp] is
    [None] or an empty list: [TypeError] for [None], [IndexError] for the
    empty list. *)
Theorem Real_Normal_rand_raises_iff (self : Real_Normal.t) normal :
  (is_ok (Real_Normal.rand self normal) = false <->
     0 < Real_Normal.spread self /\
     (Real_Normal.clamp self = None \/ Real_Normal.clamp self = Some [])) /\
  (0 < Real_Normal.spread self -> Real_Normal.clamp self = Some [] ->
     Real_Normal.rand self normal = Raise IndexError).
Proof.
  unfold Real_Normal.rand.
  destruct (flt 0 (Real_Normal.spread self)) eqn:Hs.
  - apply flt_true in Hs.
    destruct (Real_Normal.clamp self) as [[|[] flags]|]; simpl;
      (split; [split; [intros; try discriminate | intros [_ [?|?]]];
               try discriminate; auto
              | intros; try discriminate; auto]).
  - apply flt_false in Hs. simpl. split.
    + split; [discriminate|]. intros [Hc _].
      exfalso. exact (Qle_not_lt _ _ Hs Hc).
    + intros Hc. exfalso. exact (Qle_not_lt _ _ Hs Hc).
Qed.

Lemma Real_Normal_rand_raises_iff_witness :
  Real_Normal.rand
    {| Real_Normal.min_value := 0 # 1; Real_Normal.max_value := 1 # 1;
       Real_Normal.default_value := 0 # 1; Real_Normal.spread := 5 # 1;
       Real_Normal.clamp := Some [] |} (1 # 2) = Raise IndexError.
Proof.
  apply (proj2 (Real_Normal_rand_raises_iff _ (1 # 2))); reflexivity.
Defined.

(** The escape paths of [Real_Normal.rand]: with [spread <= 0], or with a
    truthy [clamp[0]], the result is [default_value] whatever the draw and
    whatever the bounds; it is not clamped. *)
Theorem Real_Normal_rand_default (self : Real_Normal.t) normal flags :
  Real_Normal.spread self <= 0 \/
  Real_Normal.clamp self = Some (true :: flags) ->
  Real_Normal.rand self normal = Ok (Real_Normal.default_value self).
Proof.
  unfold Real_Normal.rand. intros [Hs|Hc].
  - now rewrite (proj2 (flt_false _ _) Hs).
  - rewrite Hc. destruct (flt 0 (Real_Normal.spread self)); done.
Qed.

Lemma Real_Normal_rand_default_witness :
  Real_Normal.clamp Real_Normal_frozen = Some [true; false] /\
  Real_Normal.rand Real_Normal_frozen (1 # 2) = Ok (7 # 1) /\
  Real_Normal.max_value Real_Normal_frozen < 7 # 1.
Proof.
  assert (Hc : Real_Normal.clamp Real_Normal_frozen = Some [true; false])
    by reflexivity.
  exact (conj Hc (conj
    (Real_Normal_rand_default Real_Normal_frozen (1 # 2) [false]
       (or_intror Hc)) eq_refl)).
Defined.

(** With the noise active and bounds in order, [Real_Normal.rand] returns
    a value of [[min_value, max_value]]: the draw itself when it lies
    within the bounds, [min_value] when it is below, [max_value] when it
    is above. *)
Theorem Real_Normal_rand_in_bounds (self : Real_Normal.t) normal flags :
  0 < Real_Normal.spread self ->
  Real_Normal.clamp self = Some (false :: flags) ->
  Real_Normal.min_value self <= Real_Normal.max_value self ->
  exists r,
    Real_Normal.rand self normal = Ok r /\
    Real_Normal.min_value self <= r <= Real_Normal.max_value self /\
    (Real_Normal.min_value self <= normal <= Real_Normal.max_value self ->
       r = normal) /\
    (normal < Real_Normal.min_value self -> r = Real_Normal.min_value self) /\
    (Real_Normal.max_value self < normal -> r = Real_Normal.max_value self).
Proof.
  intros Hs Hc Hord. unfold Real_Normal.rand.
  rewrite (proj2 (flt_true _ _) Hs), Hc. simpl.
  eexists. split; [reflexivity|].
  fold (clamp_min_max normal (Real_Normal.min_value self)
          (Real_Normal.max_value self)).
  destruct (clamp_min_max_ordered normal _ _ Hord) as [Hb Hid].
  repeat split; try apply Hb; auto using clamp_min_max_below,
    clamp_min_max_above.
Qed.

Lemma Real_Normal_rand_in_bounds_witness :
  exists r,
    Real_Normal.rand
      {| Real_Normal.min_value := 0 # 1; Real_Normal.max_value := 1 # 1;
         Real_Normal.default_value := 1 # 2; Real_Normal.spread := 5 # 1;
         Real_Normal.clamp := Some [false; false] |} (9 # 1) = Ok r /\
    0 # 1 <= r <= 1 # 1.
Proof.
  destruct (Real_Normal_rand_in_bounds
              {| Real_Normal.min_value := 0 # 1; Real_Normal.max_value := 1 # 1;
                 Real_Normal.default_value := 1 # 2;
                 Real_Normal.spread := 5 # 1;
                 Real_Normal.clamp := Some [false; false] |}
              (9 # 1) [false] eq_refl eq_refl)
    as (r & Hr & Hb & _).
  - intros Hc. discriminate Hc.
  - exists r. split; [exact Hr | exact Hb].
Defined.

(** With bounds in order, [Real_T.rand] returns a value of
    [[min_value, max_value]]: the perturbed default itself when it lies
    within the bounds, the nearer bound otherwise. *)
Theorem Real_T_rand_in_bounds fadd (self : Real_T.t) standard_t :
  Real_T.min_value self <= Real_T.max_value self ->
  let value := fadd standard_t (Real_T.default_value self) in
  let r := Real_T.rand fadd self standard_t in
  Real_T.min_value self <= r <= Real_T.max_value self /\
  (Real_T.min_value self <= value <= Real_T.max_value self -> r = value) /\
  (value < Real_T.min_value self -> r = Real_T.min_value self) /\
  (Real_T.max_value self < value -> r = Real_T.max_value self).
Proof.
  intros Hord value r. subst r. unfold Real_T.rand. fold value.
  fold (clamp_min_max value (Real_T.min_value self) (Real_T.max_value self)).
  destruct (clamp_min_max_ordered value _ _ Hord) as [Hb Hid].
  repeat split; try apply Hb; auto using clamp_min_max_below,
    clamp_min_max_above.
Qed.

Lemma Real_T_rand_in_bounds_witness :
  0 # 1 <= Real_T.rand Qplus
             {| Real_T.min_value := 0 # 1; Real_T.max_value := 1 # 1;
                Real_T.default_value := 1 # 2 |} (- 4 # 1) <= 1 # 1.
Proof.
  refine (proj1 (Real_T_rand_in_bounds Qplus
            {| Real_T.min_value := 0 # 1; Real_T.max_value := 1 # 1;
               Real_T.default_value := 1 # 2 |} (- 4 # 1) _)).
  intros Hc. discriminate Hc.
Defined.

End RealRand.

(** * More on [Subset.rand] *)

Section SubsetOutcomes.
Context {A : Type}.
Implicit Types (self : Subset.t A) (shuffled : list nat) (out : list A).

Lemma length_indices self :
  length (Subset.indices self) = (length (Subset.elements self) - 1)%nat.
Proof. unfold Subset.indices. apply length_range. Qed.

(** The elements at the indices [1 .. len - 1] are the tail of the list. *)
Lemma lookup_indices_tail (l : list A) :
  (fun i => l !! i) <$> range 1 (length l) = Some <$> tail l.
Proof.
  apply list_eq. intros i. rewrite !list_lookup_fmap. unfold range.
  destruct (decide (i < length l - 1)%nat) as [Hi|Hi].
  - rewrite lookup_seq_lt by done. simpl.
    rewrite lookup_tail. destruct (l !! S i) eqn:E; [done|].
    apply lookup_ge_None in E. lia.
  - rewrite lookup_seq_ge by lia. simpl.
    rewrite lookup_tail, (proj2 (lookup_ge_None l (S i))) by lia. done.
Qed.

Lemma rand_lookups self shuffled out :
  Subset.indices self ≡ₚ shuffled ->
  Subset.rand self shuffled = Ok out ->
  Some <$> out
    = (fun i => Subset.elements self !! i) <$> Subset.selected self shuffled.
Proof.
  intros Hperm Hout.
  destruct (Subset_rand_ok self shuffled Hperm) as (out' & Hout' & Hf).
  assert (out' = out) as -> by congruence. clear Hout Hout'.
  induction Hf as [|i x sel out [_ Hx] _ IH]; [done|].
  cbn [fmap list_fmap]. now rewrite Hx, IH.
Qed.

Lemma fmap_Some_submseteq (k l : list A) :
  Some <$> k ⊆+ Some <$> l -> k ⊆+ l.
Proof.
  revert l. induction k as [|x k IH]; intros l H.
  - apply submseteq_nil_l.
  - assert (Hx : Some x ∈ Some <$> l)
      by (eapply elem_of_submseteq; [|exact H]; left).
    apply list_elem_of_fmap in Hx as (y & [= <-] & Hy).
    apply elem_of_Permutation in Hy as [l' Hl'].
    rewrite Hl'. apply submseteq_skip, IH.
    rewrite Hl' in H. cbn [fmap list_fmap] in H.
    now apply (submseteq_app_inv_l _ _ [Some x]) in H.
Qed.

Lemma length_tail_pred (l : list A) : length (tail l) = (length l - 1)%nat.
Proof. destruct l; simpl; lia. Qed.

Lemma NoDup_submseteq_l (k l : list A) : k ⊆+ l -> NoDup l -> NoDup k.
Proof.
  intros [k' Hk']%submseteq_Permutation Hnd.
  rewrite Hk' in Hnd. now apply NoDup_app in Hnd as [? _].
Qed.

(** The number of elements that [rand()] returns.  Only the indices
    [1 .. len(elements) - 1] are shuffled: a non-negative [size] gives
    [min(size, len(elements) - 1)] elements; a negative [size] raises
    nothing and drops that many of the shuffled indices. *)
Theorem Subset_rand_count self out :
  Subset.rand_outcome self out ->
  let n := (length (Subset.elements self) - 1)%nat in
  ((0 <= Subset.size self)%Z ->
     length out = Nat.min (Z.to_nat (Subset.size self)) n) /\
  ((Subset.size self < 0)%Z ->
     length out = Z.to_nat (Z.of_nat n + Subset.size self)).
Proof.
  intros (shuffled & Hperm & Hout) n.
  destruct (Subset_rand_ok self shuffled Hperm) as (out' & Hout' & Hf).
  assert (out' = out) as -> by congruence.
  rewrite <- (Forall2_length _ _ _ Hf).
  assert (Hn : length shuffled = n)
    by (rewrite <- (Permutation_length Hperm); apply length_indices).
  unfold Subset.selected, slice_to. split; intros Hs.
  - rewrite decide_True by done. rewrite length_take. lia.
  - rewrite decide_False by lia. rewrite length_take. lia.
Qed.

(** What [rand()] returns is drawn, without repetition of an index, from
    the elements after the first: it is a sub-multiset of
    [elements[1:]]. *)
Theorem Subset_rand_from_tail self out :
  Subset.rand_outcome self out ->
  out ⊆+ tail (Subset.elements self).
Proof.
  intros (shuffled & Hperm & Hout).
  apply fmap_Some_submseteq.
  rewrite (rand_lookups _ _ _ Hperm Hout), <- lookup_indices_tail.
  apply fmap_submseteq. fold (Subset.indices self).
  rewrite Hperm. unfold Subset.selected, slice_to.
  destruct (decide _); apply submseteq_take.
Qed.

(** When the elements are pairwise distinct, so are the returned ones,
    and the first element is never among them. *)
Theorem Subset_rand_distinct self out :
  NoDup (Subset.elements self) ->
  Subset.rand_outcome self out ->
  NoDup out /\ forall x, head (Subset.elements self) = Some x -> x ∉ out.
Proof.
  intros Hnd Ho. pose proof (Subset_rand_from_tail _ _ Ho) as Hsub.
  destruct (Subset.elements self) as [|e rest]; simpl in *.
  - apply submseteq_nil_r in Hsub as ->. split; [constructor|].
    intros x [=].
  - apply NoDup_cons in Hnd as [He Hrest]. split.
    + eapply NoDup_submseteq_l; eauto.
    + intros x [= <-] Hx. apply He. eapply elem_of_submseteq; eauto.
Qed.

(** With at most one element there is nothing to choose from: [rand()]
    returns the empty list, whatever the size. *)
Theorem Subset_rand_at_most_one self out :
  (length (Subset.elements self) <= 1)%nat ->
  Subset.rand_outcome self out ->
  out = [].
Proof.
  intros Hlen Ho. apply Subset_rand_from_tail in Ho.
  destruct (Subset.elements self) as [|e [|e' rest]]; simpl in *;
    [| |lia]; now apply submseteq_nil_r in Ho.
Qed.

(** From [size = len(elements) - 1] on, [rand()] returns a permutation
    of all the elements but the first. *)
Theorem Subset_rand_all_but_first self out :
  (Z.of_nat (length (Subset.elements self)) - 1 <= Subset.size self)%Z ->
  Subset.rand_outcome self out ->
  out ≡ₚ tail (Subset.elements self).
Proof.
  intros Hsize Ho.
  pose proof (Subset_rand_from_tail _ _ Ho) as Hsub.
  apply submseteq_length_Permutation; [done|].
  rewrite length_tail_pred.
  destruct (decide (0 <= Subset.size self)%Z) as [Hs|Hs].
  - rewrite (proj1 (Subset_rand_count _ _ Ho) Hs). lia.
  - lia.
Qed.

(** Every element past the first can come out first, as soon as
    [size >= 1]. *)
Theorem Subset_rand_reaches self i x :
  (1 <= Subset.size self)%Z ->
  (1 <= i)%nat ->
  Subset.elements self !! i = Some x ->
  exists out, Subset.rand_outcome self out /\ head out = Some x.
Proof.
  intros Hsize Hi Hx.
  assert (Hin : i ∈ Subset.indices self).
  { apply elem_of_range. split; [done|]. now apply lookup_lt_Some in Hx. }
  apply elem_of_Permutation in Hin as [rest Hperm].
  destruct (Subset_rand_ok self (i :: rest) Hperm) as (out & Hout & Hf).
  exists out. split; [exists (i :: rest); done|].
  unfold Subset.selected, slice_to in Hf.
  rewrite decide_True in Hf by lia.
  replace (Z.to_nat (Subset.size self))
    with (S (Z.to_nat (Subset.size self) - 1)) in Hf by lia.
  cbn [take] in Hf. inversion Hf as [|? y ? ? [_ Hy] _]; subst.
  simpl. congruence.
Qed.

End SubsetOutcomes.

Section SubsetOutcomeScenarios.

Lemma Subset_4_2_outcome : Subset.rand_outcome Subset_4_2 [40; 20]%nat.
Proof.
  exists [3; 1; 2]%nat. split; [|reflexivity].
  change (Subset.indices Subset_4_2) with ([1; 2] ++ [3])%nat.
  change [3; 1; 2]%nat with ([3] ++ [1; 2])%nat.
  apply Permutation_app_comm.
Qed.

Lemma Subset_ab_2_outcome : Subset.rand_outcome Subset_ab_2 ["b"%string].
Proof. exists [1%nat]. split; [apply Permutation_refl | reflexivity]. Qed.

Lemma Subset_single_outcome :
  Subset.rand_outcome {| Subset.elements := [10%nat]; Subset.size := 1 |} [].
Proof. exists []. split; [apply Permutation_refl | reflexivity]. Qed.

Lemma Subset_rand_count_witness :
  Subset.rand_outcome Subset_4_2 [40; 20]%nat /\
  length [40; 20]%nat = Nat.min 2 3.
Proof.
  refine (conj Subset_4_2_outcome
            (proj1 (Subset_rand_count Subset_4_2 _ Subset_4_2_outcome) _)).
  intros Hc. discriminate Hc.
Defined.

Lemma Subset_rand_from_tail_witness :
  Subset.rand_outcome Subset_4_2 [40; 20]%nat /\
  [40; 20]%nat ⊆+ [20; 30; 40]%nat.
Proof.
  exact (conj Subset_4_2_outcome
           (Subset_rand_from_tail Subset_4_2 _ Subset_4_2_outcome)).
Defined.

Lemma Subset_rand_distinct_witness :
  NoDup [10; 20; 30; 40]%nat /\
  Subset.rand_outcome Subset_4_2 [40; 20]%nat /\
  NoDup [40; 20]%nat /\ 10%nat ∉ [40; 20]%nat.
Proof.
  assert (Hnd : NoDup (Subset.elements Subset_4_2))
    by (apply (bool_decide_unpack _); exact I).
  destruct (Subset_rand_distinct Subset_4_2 _ Hnd Subset_4_2_outcome)
    as [Hout Hhead].
  exact (conj Hnd (conj Subset_4_2_outcome
           (conj Hout (Hhead 10%nat eq_refl)))).
Defined.

Lemma Subset_rand_at_most_one_witness :
  (length [10%nat] <= 1)%nat /\
  Subset.rand_outcome {| Subset.elements := [10%nat]; Subset.size := 1 |} [] /\
  @nil nat = [].
Proof.
  assert (Hl : (length [10%nat] <= 1)%nat) by (simpl; lia).
  exact (conj Hl (conj Subset_single_outcome
    (Subset_rand_at_most_one
       {| Subset.elements := [10%nat]; Subset.size := 1 |} []
       Hl Subset_single_outcome))).
Defined.

Lemma Subset_rand_all_but_first_witness :
  Subset.rand_outcome Subset_ab_2 ["b"%string] /\
  ["b"%string] ≡ₚ ["b"%string].
Proof.
  refine (conj Subset_ab_2_outcome
            (Subset_rand_all_but_first Subset_ab_2 _ _ Subset_ab_2_outcome)).
  intros Hc. discriminate Hc.
Defined.

Lemma Subset_rand_reaches_witness :
  exists out, Subset.rand_outcome Subset_4_2 out /\ head out = Some 40%nat.
Proof.
  refine (Subset_rand_reaches Subset_4_2 3%nat 40%nat _ _ eq_refl).
  - intros Hc. discriminate Hc.
  - lia.
Defined.

End SubsetOutcomeScenarios.

(** * The [__str__] methods *)

Section StrTexts.
Variable render_f : Q -> string.
Local Open Scope string_scope.

(** [str()] of a [Real_T] raises [TypeError] for every instance: the
    format has two conversions and is given three arguments. *)
Theorem Real_T_str_raises (self : Real_T.t) :
  Real_T_str render_f self = Raise TypeError.
Proof. reflexivity. Qed.

(** [str()] of the other types raises nothing and gives the name of the
    class with its parameters: the bounds (and the default and spread) as
    [%f], the width, the number of elements and the size as [%d]. *)
Theorem str_texts :
  (forall self : Real.t,
     Real_str render_f self
       = Ok ("Real(" ++ render_f (Real.min_value self) ++ ", "
             ++ render_f (Real.max_value self) ++ ")")) /\
  (forall self : Real_Normal.t,
     Real_Normal_str render_f self
       = Ok ("Real_Normal(" ++ render_f (Real_Normal.min_value self) ++ ", "
             ++ render_f (Real_Normal.max_value self) ++ ", "
             ++ render_f (Real_Normal.default_value self) ++ ", "
             ++ render_f (Real_Normal.spread self) ++ ")")) /\
  (forall self : Binary.t,
     Binary_str render_f self = Ok ("Binary(" ++ dec (Binary.nbits self) ++ ")")) /\
  (forall self : Integer.t,
     Integer_str render_f self
       = Ok ("Integer(" ++ dec (Integer.min_value self) ++ ", "
             ++ dec (Integer.max_value self) ++ ")")) /\
  (forall (A : Type) (self : Permutation.t A),
     Permutation_str render_f self
       = Ok ("Permutation("
             ++ dec (Z.of_nat (length (Permutation.elements self))) ++ ")")) /\
  (forall (A : Type) (self : Subset.t A),
     Subset_str render_f self
       = Ok ("Subset(" ++ dec (Z.of_nat (length (Subset.elements self)))
             ++ ", " ++ dec (Subset.size self) ++ ")")).
Proof. repeat split. Qed.

End StrTexts.
